(** * Lazy Fisher-Yates permutation of an IP address range

    Shallow embedding of [isc::dhcp::AddressRangePermutation]
    (src/lib/dhcpsrv/address_range_permutation.{h,cc}) and the properties
    of its constructor, of [next] and of [exhausted]. *)

From Stdlib Require Import ZArith Lia.
From stdpp Require Import base option list list_numbers gmap.

Local Open Scope Z_scope.

(** ** Fixed-width integers

    [cursor_] and the keys of [state_] are [uint64_t]; the upper bound handed
    to [std::uniform_int_distribution<int>] is an [int]. *)

Definition to_uint64 (z : Z) : Z := z mod 2 ^ 64.

(** Conversion of an integer value to [int]: the low 32 bits read in two's
    complement. *)
Definition to_int (z : Z) : Z := (z + 2 ^ 31) mod 2 ^ 32 - 2 ^ 31.

Definition INT_MAX : Z := 2 ^ 31 - 1.

(** ** Addresses and ranges (external value types) *)

Inductive Family : Set := V4 | V6.

(** Modelled from the spec: asiolink::IOAddress, which is not part of the
    sources at hand, is an address of one family, a point of that family's
    linear address space (32 or 128 bits). *)
Record IOAddress : Set := mkAddr { family : Family; numeric : Z }.

Definition bits (f : Family) : Z :=
  match f with V4 => 32 | V6 => 128 end.

Definition isV4 (a : IOAddress) : bool :=
  match family a with V4 => true | V6 => false end.

(** Modelled from the spec: the zero address of each family is the all-zero
    bit pattern of the family's width. *)
Definition IPV4_ZERO_ADDRESS : IOAddress := mkAddr V4 0.
Definition IPV6_ZERO_ADDRESS : IOAddress := mkAddr V6 0.

(** Modelled from the spec: dhcp::AddressRange (address_range.h is absent) is
    the pair of the inclusive endpoints. *)
Record AddressRange : Set := mkRange { start_ : IOAddress; end_ : IOAddress }.

(** A well-formed range: one family, [start <= end], both inside the
    family's address space. *)
Definition well_formed (r : AddressRange) : Prop :=
  family (start_ r) = family (end_ r) /\
  0 <= numeric (start_ r) /\
  numeric (start_ r) <= numeric (end_ r) /\
  numeric (end_ r) < 2 ^ bits (family (start_ r)).

(** Modelled from the spec: asiolink::addrsInRange (addr_utilities.h is
    absent) is the address count [numeric(end) - numeric(start) + 1],
    computed in a width that holds the whole address space of the family. *)
Definition addrsInRange (min max : IOAddress) : Z :=
  numeric max - numeric min + 1.

(** Modelled from the spec: asiolink::offsetAddress (addr_utilities.h is
    absent) yields the natural address [start + position]. *)
Definition offsetAddress (addr : IOAddress) (offset : Z) : IOAddress :=
  mkAddr (family addr) (numeric addr + offset).

(** ** The random source

    [std::mt19937] is modelled as an oracle: an arbitrary sequence of raw
    outputs and the index of the next one.  The distribution maps one raw
    output into [[a, b]]; every value of the interval is the image of some
    raw output, so quantifying over generators covers every possible pick. *)

Record Generator : Type := mkGen { mt_out : nat -> Z; mt_idx : nat }.

Definition draw (g : Generator) : Z * Generator :=
  (mt_out g (mt_idx g), mkGen (mt_out g) (S (mt_idx g))).

(** [std::uniform_int_distribution<int> dist(a, b); dist(g)].  The standard
    requires [a <= b]; otherwise the behaviour is undefined ([None]). *)
Definition uniform_int_distribution (a b : Z) (g : Generator)
  : option (Z * Generator) :=
  if decide (a <= b)
  then Some (a + fst (draw g) mod (b - a + 1), snd (draw g))
  else None.

(** ** Engine state *)

Record AddressRangePermutation : Type := mkPermutation {
  range_ : AddressRange;
  cursor_ : Z;                      (* uint64_t *)
  state_ : gmap Z IOAddress;        (* std::map<uint64_t, IOAddress> *)
  done_ : bool;
  generator_ : Generator
}.

(** The constructor.  [seeded] stands for the generator after
    [generator_.seed(rd())]. *)
Definition construct (range : AddressRange) (seeded : Generator)
  : AddressRangePermutation :=
  {| range_ := range;
     cursor_ := to_uint64 (addrsInRange (start_ range) (end_ range) - 1);
     state_ := ∅;
     done_ := false;
     generator_ := seeded |}.

(** [bool exhausted() const] as a state-passing computation. *)
Definition exhausted (p : AddressRangePermutation)
  : bool * AddressRangePermutation :=
  (done_ p, p).

(** What a call of [next] can do: return an address together with the
    [done] out-parameter, leave through the [std::out_of_range] exception of
    [state_.at] (the out-parameter and [done_] were assigned before), or hit
    undefined behaviour in the distribution. *)
Inductive Outcome : Type :=
| Returned (addr : IOAddress) (done : bool) (p : AddressRangePermutation)
| OutOfRange (done : bool) (p : AddressRangePermutation)
| Undefined.

(** The upper bound [next] hands to the distribution: [cursor_ - 1],
    computed on [uint64_t] and converted to the [int] parameter of
    [std::uniform_int_distribution<int>]. *)
Definition dist_upper (cursor : Z) : Z := to_int (to_uint64 (cursor - 1)).

(** The pattern of lines 53-64 and 68-73 of [next]: look the position up in
    [state_], and infer the address from the position when it is absent. *)
Definition address_at (p : AddressRangePermutation) (pos : Z) : IOAddress :=
  match state_ p !! pos with
  | Some a => a
  | None => offsetAddress (start_ (range_ p)) pos
  end.

Definition next (p : AddressRangePermutation) : Outcome :=
  if done_ p then
    (* lines 27-30: the zero address of the family, nothing is modified *)
    Returned (if isV4 (start_ (range_ p))
              then IPV4_ZERO_ADDRESS else IPV6_ZERO_ADDRESS) true p
  else if cursor_ p =? 0 then
    (* lines 33-36: [done = done_ = true] comes first, then [state_.at(0)],
       which throws when key 0 is absent *)
    let p' := {| range_ := range_ p; cursor_ := cursor_ p;
                 state_ := state_ p; done_ := true;
                 generator_ := generator_ p |} in
    match state_ p !! 0 with
    | Some a => Returned a true p'
    | None => OutOfRange true p'
    end
  else
    (* lines 45-46 *)
    match uniform_int_distribution 0 (dist_upper (cursor_ p)) (generator_ p) with
    | None => Undefined
    | Some (next_loc, g') =>
        (* [next_loc] is an [int]; as a key of [state_] it is converted to
           [uint64_t] *)
        let key := to_uint64 next_loc in
        (* lines 53-64 *)
        let next_loc_address :=
          match state_ p !! key with
          | Some a => a
          | None => offsetAddress (start_ (range_ p)) next_loc
          end in
        (* lines 67-73 *)
        let cursor_address := address_at p (cursor_ p) in
        (* lines 80-86: [insert] when the key is absent, assignment through
           [at] when it is present, that is an insert-or-overwrite; then
           [--cursor_] *)
        Returned next_loc_address false
          {| range_ := range_ p;
             cursor_ := to_uint64 (cursor_ p - 1);
             state_ := <[key := cursor_address]> (state_ p);
             done_ := false;
             generator_ := g' |}
    end.

(** The state a call leaves behind, when the call has defined behaviour. *)
Definition state_after (o : Outcome) : option AddressRangePermutation :=
  match o with
  | Returned _ _ p => Some p
  | OutOfRange _ p => Some p
  | Undefined => None
  end.

(** [n] successive calls of [next]; [None] as soon as one of them does not
    return normally. *)
Fixpoint run (n : nat) (p : AddressRangePermutation)
  : option (list (IOAddress * bool) * AddressRangePermutation) :=
  match n with
  | O => Some ([], p)
  | S n' =>
      match next p with
      | Returned a d p' =>
          match run n' p' with
          | Some (outs, q) => Some ((a, d) :: outs, q)
          | None => None
          end
      | _ => None
      end
  end.

(** ** Specification vocabulary *)

(** The states an engine over range [r] can be in: the state the constructor
    builds, and any state a call of [next] leaves behind. *)
Inductive reachable (r : AddressRange) : AddressRangePermutation -> Prop :=
| reachable_construct (g : Generator) : reachable r (construct r g)
| reachable_next (p q : AddressRangePermutation) :
    reachable r p -> state_after (next p) = Some q -> reachable r q.

(** The three ways in which a call leaves a state behind. *)
Inductive next_step (p q : AddressRangePermutation) : Prop :=
| step_exhausted : done_ p = true -> q = p -> next_step p q
| step_final :
    done_ p = false -> cursor_ p = 0 ->
    q = {| range_ := range_ p; cursor_ := cursor_ p; state_ := state_ p;
           done_ := true; generator_ := generator_ p |} ->
    next_step p q
| step_general (pick : Z) (g' : Generator) :
    done_ p = false -> cursor_ p <> 0 ->
    uniform_int_distribution 0 (dist_upper (cursor_ p))
                             (generator_ p) = Some (pick, g') ->
    q = {| range_ := range_ p; cursor_ := cursor_ p - 1;
           state_ := <[pick := address_at p (cursor_ p)]> (state_ p);
           done_ := false; generator_ := g' |} ->
    next_step p q.

(** The invariant of the reachable states of an engine whose cursor started
    at [c0]: the range is never replaced, the cursor stays below its initial
    value, the keys of the table are positions below [c0], and when the
    cursor of a live engine that made at least one step is 0, position 0 is
    in the table. *)
Record invariant (r : AddressRange) (c0 : Z) (p : AddressRangePermutation) : Prop := {
  inv_range : range_ p = r;
  inv_cursor : 0 <= cursor_ p <= c0;
  inv_keys : forall k, is_Some (state_ p !! k) -> 0 <= k < c0;
  inv_zero : done_ p = false -> cursor_ p = 0 -> c0 <> 0 -> is_Some (state_ p !! 0)
}.

(** The cursor the constructor computes for range [r]. *)
Definition initial_cursor (r : AddressRange) : Z :=
  to_uint64 (addrsInRange (start_ r) (end_ r) - 1).

(** The zero address of a family. *)
Definition family_zero (f : Family) : IOAddress := mkAddr f 0.

(** The public operations of a constructed engine. *)
Inductive Method : Set := call_next | call_exhausted.

(** The state a call of a method leaves behind. *)
Definition invoke (m : Method) (p : AddressRangePermutation)
  : option AddressRangePermutation :=
  match m with
  | call_next => state_after (next p)
  | call_exhausted => Some (snd (exhausted p))
  end.

(** The addresses of a range, in increasing order. *)
Definition range_addresses (r : AddressRange) : list IOAddress :=
  offsetAddress (start_ r) <$> seqZ 0 (addrsInRange (start_ r) (end_ r)).

(** The addresses not yet returned: what positions [0 .. cursor] hold. *)
Definition contents (p : AddressRangePermutation) : list IOAddress :=
  address_at p <$> seqZ 0 (cursor_ p + 1).

(** Membership of an address in a range. *)
Definition in_range (r : AddressRange) (a : IOAddress) : Prop :=
  family a = family (start_ r) /\
  numeric (start_ r) <= numeric a <= numeric (end_ r).

(** What holds of a live engine over [r] together with the list [hist] of
    the results of the calls made so far: the cursor has moved by one per
    call; the addresses returned and the contents of positions
    [0 .. cursor] are, together, the addresses of the range; a position
    that is in the table has had its natural address returned; and no call
    returned the natural address of the position the cursor was at. *)
Record live_invariant (r : AddressRange) (hist : list (IOAddress * bool))
    (p : AddressRangePermutation) : Prop := {
  live_flag : done_ p = false;
  live_range : range_ p = r;
  live_cursor : cursor_ p = initial_cursor r - Z.of_nat (length hist);
  live_cursor_nonneg : 0 <= cursor_ p;
  live_contents : (fst <$> hist) ++ contents p ≡ₚ range_addresses r;
  live_picked :
    forall j, is_Some (state_ p !! j) ->
              offsetAddress (start_ r) j ∈ fst <$> hist;
  live_hist :
    forall i a d, hist !! i = Some (a, d) ->
      d = false /\
      a <> offsetAddress (start_ r) (initial_cursor r - Z.of_nat i)
}.

(** What holds once the call of the final-address branch has returned. *)
Record final_invariant (r : AddressRange) (hist : list (IOAddress * bool))
    (p : AddressRangePermutation) : Prop := {
  final_flag : done_ p = true;
  final_cursor : cursor_ p = 0;
  final_length : Z.of_nat (length hist) = initial_cursor r + 1;
  final_contents : fst <$> hist ≡ₚ range_addresses r;
  final_hist :
    forall i a d, hist !! i = Some (a, d) ->
      (d = true <-> Z.of_nat i = initial_cursor r) /\
      a <> offsetAddress (start_ r) (initial_cursor r - Z.of_nat i)
}.

(** IPv6 range of [2^40] addresses, the prefix [2001:db8::/88]. *)
Definition range_v6_prefix88 : AddressRange :=
  mkRange (mkAddr V6 (0x20010db8 * 2 ^ 96))
          (mkAddr V6 (0x20010db8 * 2 ^ 96 + (2 ^ 40 - 1))).

(** ** Example data

    The ranges of the scenarios, ranges at the limits of the integer types,
    and two generators. *)

Definition ipv4 (a b c d : Z) : IOAddress :=
  mkAddr V4 (((a * 256 + b) * 256 + c) * 256 + d).

Definition seed_zero : Generator := mkGen (fun _ => 0) 0%nat.
Definition seed_count : Generator := mkGen (fun n => 7 * Z.of_nat n + 3) 0%nat.

Definition range_A : AddressRange := mkRange (ipv4 192 0 2 1) (ipv4 192 0 2 5).
Definition range_B : AddressRange := mkRange (ipv4 192 0 2 7) (ipv4 192 0 2 7).

(** IPv4 range of [2^31 + 2] addresses, and IPv6 ranges of [2^32 + 2] and of
    [2^64 + 1] addresses. *)
Definition range_half : AddressRange := mkRange (ipv4 0 0 0 0) (ipv4 128 0 0 1).
Definition range_v6_33 : AddressRange :=
  mkRange (mkAddr V6 0) (mkAddr V6 (2 ^ 32 + 1)).
Definition range_v6_65 : AddressRange :=
  mkRange (mkAddr V6 0) (mkAddr V6 (2 ^ 64)).

(** The prefix [2001:db8::/64], [2^64] addresses. *)
Definition range_v6_prefix64 : AddressRange :=
  mkRange (mkAddr V6 (0x20010db8 * 2 ^ 96))
          (mkAddr V6 (0x20010db8 * 2 ^ 96 + (2 ^ 64 - 1))).

(** The whole IPv6 address space, [2^128] addresses. *)
Definition range_v6_all : AddressRange :=
  mkRange (mkAddr V6 0) (mkAddr V6 (2 ^ 128 - 1)).

(** Scenario C: [2001:db8::1 - 2001:db8::2]. *)
Definition range_C : AddressRange :=
  mkRange (mkAddr V6 (0x20010db8 * 2 ^ 96 + 1)) (mkAddr V6 (0x20010db8 * 2 ^ 96 + 2)).

(** The engine over range A once it has been run to exhaustion. *)
Definition exhausted_A : AddressRangePermutation :=
  match run 5 (construct range_A seed_count) with
  | Some (_, q) => q
  | None => construct range_A seed_count
  end.



(** The engines over range A after two calls and over range C after one. *)
Definition after_two_A : AddressRangePermutation :=
  match run 2 (construct range_A seed_count) with
  | Some (_, q) => q
  | None => construct range_A seed_count
  end.


Example scenario_A_run :
  option_map fst (run 6 (construct range_A seed_count)) =
  Some [(ipv4 192 0 2 4, false); (ipv4 192 0 2 2, false);
        (ipv4 192 0 2 5, false); (ipv4 192 0 2 1, false);
        (ipv4 192 0 2 3, true); (IPV4_ZERO_ADDRESS, true)].
Proof. vm_compute. reflexivity. Qed.

(** ** Arithmetic of the conversions *)

Lemma to_uint64_range z : 0 <= to_uint64 z < 2 ^ 64.
Proof. unfold to_uint64. apply Z.mod_pos_bound. lia. Qed.

Lemma to_uint64_small z : 0 <= z < 2 ^ 64 -> to_uint64 z = z.
Proof. intros H. unfold to_uint64. apply Z.mod_small. exact H. Qed.

Lemma to_uint64_fixed z : to_uint64 z = z <-> 0 <= z < 2 ^ 64.
Proof.
  split; [intros E | apply to_uint64_small].
  rewrite <- E. apply to_uint64_range.
Qed.

Lemma to_int_small z : - 2 ^ 31 <= z < 2 ^ 31 -> to_int z = z.
Proof. intros H. unfold to_int. rewrite Z.mod_small; lia. Qed.

(** Narrowing a non-negative value to [int] never enlarges it. *)
Lemma to_int_le z : 0 <= z -> to_int z <= z.
Proof.
  intros H. unfold to_int.
  pose proof (Z.mod_le (z + 2 ^ 31) (2 ^ 32)). lia.
Qed.

Lemma to_int_upper z : to_int z <= INT_MAX.
Proof.
  unfold to_int, INT_MAX.
  pose proof (Z.mod_pos_bound (z + 2 ^ 31) (2 ^ 32)). lia.
Qed.

(** ** The distribution *)

Lemma uniform_int_distribution_bounds a b g x g' :
  uniform_int_distribution a b g = Some (x, g') -> a <= x <= b.
Proof.
  unfold uniform_int_distribution. destruct (decide (a <= b)) as [Hab|]; [|discriminate].
  intros [= <- _].
  assert (Hm : forall r, 0 <= r mod (b - a + 1) < b - a + 1)
    by (intros r; apply Z.mod_pos_bound; lia).
  specialize (Hm (fst (draw g))). simpl in *. lia.
Qed.

Lemma uniform_int_distribution_defined a b g :
  a <= b -> exists x g', uniform_int_distribution a b g = Some (x, g').
Proof.
  intros Hab. unfold uniform_int_distribution.
  destruct (decide (a <= b)); [eauto | contradiction].
Qed.

Lemma uniform_int_distribution_undefined a b g :
  b < a -> uniform_int_distribution a b g = None.
Proof.
  intros Hab. unfold uniform_int_distribution.
  destruct (decide (a <= b)); [lia | reflexivity].
Qed.

(** Every value of the interval can be drawn. *)
Lemma uniform_int_distribution_onto a b x :
  a <= x <= b ->
  exists g g', uniform_int_distribution a b g = Some (x, g').
Proof.
  intros Hx. exists (mkGen (fun _ => x - a) 0%nat). eexists.
  unfold uniform_int_distribution. destruct (decide (a <= b)); [|lia].
  simpl. rewrite Z.mod_small by lia. f_equal. f_equal. lia.
Qed.

(** The pick of a general step, whenever the step is defined, lies in
    [[0, cursor - 1]] and fits an [int]. *)
Lemma pick_in_range c g pick g' :
  0 < c < 2 ^ 64 ->
  uniform_int_distribution 0 (dist_upper c) g = Some (pick, g') ->
  0 <= pick <= c - 1 /\ pick <= INT_MAX.
Proof.
  intros Hc Hd. apply uniform_int_distribution_bounds in Hd.
  unfold dist_upper in Hd. rewrite to_uint64_small in Hd by lia.
  pose proof (to_int_le (c - 1)). pose proof (to_int_upper (c - 1)). lia.
Qed.

(** The last general step, at cursor 1, can only pick position 0. *)
Lemma pick_at_cursor_one g pick g' :
  uniform_int_distribution 0 (dist_upper 1) g = Some (pick, g') -> pick = 0.
Proof.
  intros Hu. destruct (pick_in_range 1 g pick g') as [Hp _]; [lia | exact Hu | lia].
Qed.

(** Well-formedness of a concrete range, by evaluation. *)
Ltac wf_range :=
  unfold well_formed; repeat split;
  first [reflexivity | vm_compute; discriminate].

(** ** The three branches of [next] *)

Lemma family_zero_cases a :
  (if isV4 a then IPV4_ZERO_ADDRESS else IPV6_ZERO_ADDRESS) = family_zero (family a).
Proof. unfold isV4. destruct (family a); reflexivity. Qed.

Lemma next_done p :
  done_ p = true ->
  next p = Returned (family_zero (family (start_ (range_ p)))) true p.
Proof.
  intros Hd. unfold next. rewrite Hd. f_equal. apply family_zero_cases.
Qed.

Lemma next_general p pick g' :
  0 < cursor_ p < 2 ^ 64 ->
  done_ p = false ->
  uniform_int_distribution 0 (dist_upper (cursor_ p)) (generator_ p)
    = Some (pick, g') ->
  next p =
    Returned (address_at p pick) false
      {| range_ := range_ p;
         cursor_ := cursor_ p - 1;
         state_ := <[pick := address_at p (cursor_ p)]> (state_ p);
         done_ := false;
         generator_ := g' |}.
Proof.
  intros Hc Hd Hu.
  destruct (pick_in_range _ _ _ _ Hc Hu) as [Hp Hmax]. unfold INT_MAX in Hmax.
  unfold next. rewrite Hd.
  destruct (Z.eqb_spec (cursor_ p) 0) as [E|_]; [lia|].
  rewrite Hu. cbv zeta.
  rewrite (to_uint64_small pick) by lia.
  rewrite (to_uint64_small (cursor_ p - 1)) by lia.
  reflexivity.
Qed.

Lemma run_done p n :
  done_ p = true ->
  run n p =
    Some (replicate n (family_zero (family (start_ (range_ p))), true), p).
Proof.
  intros Hd. induction n as [|n IH]; [reflexivity|].
  simpl. rewrite (next_done p Hd), IH. reflexivity.
Qed.

(** C3: once the exhaustion flag is set, every call of [next] returns the
    zero address of the range's family (IPv4 zero for a v4 range, IPv6 zero
    for a v6 range) with [done = true] and leaves the whole engine state
    unchanged, for any number [n] of further calls. *)
Theorem next_after_exhaustion (p : AddressRangePermutation) (n : nat) :
  done_ p = true ->
  next p = Returned (family_zero (family (start_ (range_ p)))) true p /\
  run n p =
    Some (replicate n (family_zero (family (start_ (range_ p))), true), p).
Proof.
  intros Hd. split; [apply next_done | apply run_done]; exact Hd.
Qed.

Lemma next_after_exhaustion_witness :
  done_ exhausted_A = true /\
  (next exhausted_A = Returned IPV4_ZERO_ADDRESS true exhausted_A /\
   run 3 exhausted_A =
     Some (replicate 3 (IPV4_ZERO_ADDRESS, true), exhausted_A)).
Proof.
  split; [reflexivity|].
  apply (next_after_exhaustion exhausted_A 3). reflexivity.
Defined.

(** C4: in a state whose exhaustion flag is unset and whose cursor is
    positive, for the pick the random source yields in [[0, cursor - 1]],
    [next] returns the address at position [pick] (the entry of the table
    when present, [start + pick] otherwise), records that position [pick]
    now holds the address that was at position [cursor], decrements the
    cursor by one and sets [done = false]. *)
Theorem next_general_step (p : AddressRangePermutation) (pick : Z) (g' : Generator) :
  0 < cursor_ p < 2 ^ 64 ->
  done_ p = false ->
  uniform_int_distribution 0 (dist_upper (cursor_ p)) (generator_ p)
    = Some (pick, g') ->
  0 <= pick <= cursor_ p - 1 ->
  next p =
    Returned
      (match state_ p !! pick with
       | Some a => a
       | None => offsetAddress (start_ (range_ p)) pick
       end)
      false
      {| range_ := range_ p;
         cursor_ := cursor_ p - 1;
         state_ :=
           <[pick := match state_ p !! cursor_ p with
                     | Some b => b
                     | None => offsetAddress (start_ (range_ p)) (cursor_ p)
                     end]> (state_ p);
         done_ := false;
         generator_ := g' |}.
Proof.
  intros Hc Hd Hu _. exact (next_general p pick g' Hc Hd Hu).
Qed.

Lemma next_general_step_witness :
  exists a q,
    next (construct range_A seed_count) = Returned a false q /\
    a = ipv4 192 0 2 4 /\ cursor_ q = 3 /\
    state_ q !! 3 = Some (ipv4 192 0 2 5).
Proof.
  eexists. eexists. split.
  - apply (next_general_step (construct range_A seed_count) 3
             (mkGen (mt_out seed_count) 1)).
    + vm_compute. split; reflexivity.
    + reflexivity.
    + reflexivity.
    + vm_compute. split; discriminate.
  - repeat split; reflexivity.
Defined.

(** ** The single-address range *)

(** C2: for the range [192.0.2.7 - 192.0.2.7] the cursor starts at 0 and the
    table is empty, so the first call of [next] takes the final-address
    branch, sets the flag and leaves through the failed lookup
    [state_.at(0)]: no address is returned. *)
Theorem next_single_address_throws (g : Generator) :
  well_formed range_B /\
  addrsInRange (start_ range_B) (end_ range_B) = 1 /\
  offsetAddress (start_ range_B) 0 = ipv4 192 0 2 7 /\
  next (construct range_B g) =
    OutOfRange true
      {| range_ := range_B; cursor_ := 0; state_ := ∅; done_ := true;
         generator_ := g |}.
Proof. split; [wf_range | repeat split; reflexivity]. Qed.

(** C1: on the well-formed range [192.0.2.7 - 192.0.2.7], of size [N = 1],
    a run of [N] calls does not yield the address of the range: the first
    call does not return. *)
Theorem run_single_address_fails (g : Generator) :
  well_formed range_B /\
  range_addresses range_B = [ipv4 192 0 2 7] /\
  run (Z.to_nat (addrsInRange (start_ range_B) (end_ range_B)))
      (construct range_B g) = None.
Proof. split; [wf_range | split; reflexivity]. Qed.

(** After the failed call the flag is set, so the address [192.0.2.7] is
    never produced: every later call returns the zero address. *)
Lemma single_address_never_returned (g : Generator) (p : AddressRangePermutation) (n : nat) :
  state_after (next (construct range_B g)) = Some p ->
  run n p = Some (replicate n (IPV4_ZERO_ADDRESS, true), p).
Proof.
  intros E. vm_compute in E. injection E as <-.
  rewrite run_done by reflexivity. reflexivity.
Qed.

(** ** The bounds of the distribution *)

(** C6: on the IPv4 range [0.0.0.0 - 128.0.0.1] the first call has
    [cursor - 1 = 2^31]; converted to [int] the upper bound is [-2^31], so
    the distribution is built with bounds [(0, -2^31)] instead of
    [(0, 2^31)] and the call has no defined result. *)
Theorem distribution_bound_truncated (g : Generator) :
  well_formed range_half /\
  cursor_ (construct range_half g) - 1 = 2 ^ 31 /\
  dist_upper (cursor_ (construct range_half g)) = - 2 ^ 31 /\
  next (construct range_half g) = Undefined.
Proof.
  split; [|repeat split; reflexivity].
  wf_range.
Qed.

(** On an IPv6 range of [2^32 + 2] addresses the bound wraps to 0: the first
    call can only pick position 0 among the positions [0 .. 2^32]. *)
Example distribution_bound_wraps (g : Generator) :
  cursor_ (construct range_v6_33 g) - 1 = 2 ^ 32 /\
  dist_upper (cursor_ (construct range_v6_33 g)) = 0 /\
  exists q, next (construct range_v6_33 g) = Returned (mkAddr V6 0) false q.
Proof.
  split; [reflexivity|]. split; [reflexivity|].
  eexists. unfold next, uniform_int_distribution. simpl.
  rewrite Z.mod_1_r. reflexivity.
Qed.

(** On the prefix [2001:db8::/64] the bound is [-2]: no defined result
    either. *)
Example distribution_bound_prefix64 (g : Generator) :
  well_formed range_v6_prefix64 /\
  cursor_ (construct range_v6_prefix64 g) = 2 ^ 64 - 1 /\
  dist_upper (cursor_ (construct range_v6_prefix64 g)) = -2 /\
  next (construct range_v6_prefix64 g) = Undefined.
Proof. split; [wf_range | repeat split; reflexivity]. Qed.

(** ** Reachable states and their invariant *)

Lemma state_after_next p q :
  0 <= cursor_ p < 2 ^ 64 ->
  state_after (next p) = Some q -> next_step p q.
Proof.
  intros Hc. destruct (done_ p) eqn:Hd.
  - rewrite (next_done p Hd). intros [= <-]. apply step_exhausted; auto.
  - destruct (Z.eq_dec (cursor_ p) 0) as [E|E].
    + unfold next. rewrite Hd, E. simpl.
      intros Hq. apply step_final; auto.
      rewrite E. destruct (state_ p !! 0); simpl in Hq; congruence.
    + destruct (uniform_int_distribution 0 (dist_upper (cursor_ p))
                  (generator_ p)) as [[pick g']|] eqn:Hu.
      * rewrite (next_general p pick g') by (auto; lia).
        intros [= <-]. eapply step_general; eauto.
      * unfold next. rewrite Hd. destruct (Z.eqb_spec (cursor_ p) 0); [lia|].
        rewrite Hu. discriminate.
Qed.

Lemma initial_cursor_range r : 0 <= initial_cursor r < 2 ^ 64.
Proof. apply to_uint64_range. Qed.

Lemma initial_cursor_le r :
  well_formed r -> initial_cursor r <= addrsInRange (start_ r) (end_ r) - 1.
Proof.
  intros (_ & _ & Hle & _). unfold initial_cursor, to_uint64, addrsInRange.
  apply Z.mod_le; lia.
Qed.

Lemma initial_cursor_exact r :
  well_formed r -> addrsInRange (start_ r) (end_ r) <= 2 ^ 64 ->
  initial_cursor r = addrsInRange (start_ r) (end_ r) - 1.
Proof.
  intros (_ & _ & Hle & _) HN. unfold initial_cursor, addrsInRange in *.
  apply to_uint64_small. lia.
Qed.

Lemma invariant_construct r g : invariant r (initial_cursor r) (construct r g).
Proof.
  pose proof (initial_cursor_range r).
  split; simpl; fold (initial_cursor r).
  - reflexivity.
  - lia.
  - intros k [a Ha]. rewrite lookup_empty in Ha. discriminate.
  - intros _ E1 E2. contradiction.
Qed.

Lemma invariant_step r c0 p q :
  c0 < 2 ^ 64 -> invariant r c0 p -> next_step p q -> invariant r c0 q.
Proof.
  intros Hc0 [Hr Hc Hk Hz] [Hd ->|Hd Hc' ->|pick g' Hd Hc' Hu ->].
  - split; assumption.
  - split; simpl; auto; discriminate.
  - destruct (pick_in_range (cursor_ p) (generator_ p) pick g') as [Hp _];
      [lia | exact Hu |].
    split; simpl.
    + exact Hr.
    + lia.
    + intros k. rewrite lookup_insert. case_decide as E; [lia | apply Hk].
    + intros _ E _. assert (pick = 0) as -> by lia.
      rewrite lookup_insert_eq. eauto.
Qed.

Lemma reachable_invariant r p :
  reachable r p -> invariant r (initial_cursor r) p.
Proof.
  pose proof (initial_cursor_range r) as H0.
  induction 1 as [g|p q _ IH Hq].
  - apply invariant_construct.
  - apply (invariant_step r _ p q); [lia | exact IH |].
    apply state_after_next; [|exact Hq].
    destruct IH as [_ Hc _ _]. lia.
Qed.

Lemma run_reachable r n : forall p outs q,
  reachable r p -> run n p = Some (outs, q) -> reachable r q.
Proof.
  induction n as [|n IH]; simpl; intros p outs q Hp Hrun.
  - injection Hrun as _ <-. exact Hp.
  - destruct (next p) as [a d p'| |] eqn:Hn; try discriminate.
    destruct (run n p') as [[outs' q']|] eqn:Hr; [|discriminate].
    injection Hrun as _ <-.
    apply (IH p' outs' q'); [|exact Hr].
    apply (reachable_next r p p' Hp). rewrite Hn. reflexivity.
Qed.

(** A table whose keys are positions below [n] has at most [n] entries. *)
Lemma size_keys_below (m : gmap Z IOAddress) (n : Z) :
  0 <= n ->
  (forall k, is_Some (m !! k) -> 0 <= k < n) ->
  Z.of_nat (size m) <= n.
Proof.
  intros Hn Hk.
  assert (Hsub : dom m ⊆ (list_to_set (seqZ 0 n) : gset Z)).
  { intros k Hin. apply elem_of_dom in Hin.
    apply elem_of_list_to_set, elem_of_seqZ. specialize (Hk k Hin). lia. }
  apply subseteq_size in Hsub.
  rewrite size_dom, size_list_to_set, length_seqZ in Hsub by apply NoDup_seqZ.
  lia.
Qed.

Lemma next_step_size p q :
  next_step p q -> (size (state_ q) <= S (size (state_ p)))%nat.
Proof.
  intros [_ ->|_ _ ->|pick g' _ _ _ ->]; simpl; try lia.
  rewrite map_size_insert. destruct (state_ p !! pick); simpl; lia.
Qed.

(** C5: in every state an engine over a well-formed range can reach, the
    table holds at most [size - 1] entries, a call of [next] adds at most
    one entry to it, and a position absent from the table stands for the
    natural address [start + position]. *)
Theorem table_size_bounded (r : AddressRange) (p : AddressRangePermutation) :
  well_formed r ->
  reachable r p ->
  Z.of_nat (size (state_ p)) <= addrsInRange (start_ r) (end_ r) - 1 /\
  (forall q, state_after (next p) = Some q ->
             (size (state_ q) <= S (size (state_ p)))%nat) /\
  (forall pos, state_ p !! pos = None ->
               address_at p pos = offsetAddress (start_ r) pos).
Proof.
  intros Hwf Hp. destruct (reachable_invariant r p Hp) as [Hr Hc Hk _].
  pose proof (initial_cursor_le r Hwf). pose proof (initial_cursor_range r).
  split; [|split].
  - assert (Z.of_nat (size (state_ p)) <= initial_cursor r)
      by (apply size_keys_below; [lia | exact Hk]).
    lia.
  - intros q Hq. apply next_step_size, state_after_next; [lia | exact Hq].
  - intros pos Hpos. unfold address_at. rewrite Hpos, Hr. reflexivity.
Qed.

Lemma table_size_bounded_witness :
  well_formed range_A /\ reachable range_A after_two_A /\
  Z.of_nat (size (state_ after_two_A)) <= 4.
Proof.
  assert (Hwf : well_formed range_A) by wf_range.
  assert (Hr : reachable range_A after_two_A).
  { apply (run_reachable range_A 2 (construct range_A seed_count)
             [(ipv4 192 0 2 4, false); (ipv4 192 0 2 2, false)]).
    - apply reachable_construct.
    - reflexivity. }
  split; [exact Hwf|]. split; [exact Hr|].
  exact (proj1 (table_size_bounded range_A after_two_A Hwf Hr)).
Defined.




(** The sizes excluded above are exactly those on which the lookup fails:
    when [N >= 2] and [(N - 1) mod 2^64 = 0] the fresh engine is already in
    the final-address case and position 0 is not in the table. *)
Lemma terminal_lookup_fails_when_cursor_wraps r g :
  (addrsInRange (start_ r) (end_ r) - 1) mod 2 ^ 64 = 0 ->
  reachable r (construct r g) /\
  done_ (construct r g) = false /\
  cursor_ (construct r g) = 0 /\
  state_ (construct r g) !! 0 = None.
Proof.
  intros Hc0. split; [apply reachable_construct|].
  split; [reflexivity|]. split; [exact Hc0 | apply lookup_empty].
Qed.

(** Where the final-address case is met: from a live state whose cursor is
    [n <= 2^31], [n] calls return and leave a live engine with cursor 0. *)
Lemma run_to_cursor_zero r n : forall p,
  reachable r p ->
  cursor_ p = Z.of_nat n ->
  Z.of_nat n <= 2 ^ 31 ->
  done_ p = false ->
  exists outs q,
    run n p = Some (outs, q) /\ reachable r q /\
    done_ q = false /\ cursor_ q = 0.
Proof.
  induction n as [|m IH]; intros p Hp Hc Hm Hd.
  - exists [], p. auto.
  - assert (Hcur : 0 < cursor_ p < 2 ^ 64) by lia.
    destruct (uniform_int_distribution_defined 0 (dist_upper (cursor_ p))
                (generator_ p)) as (pick & g' & Hu).
    { unfold dist_upper. rewrite to_uint64_small by lia.
      rewrite to_int_small; lia. }
    pose proof (next_general p pick g' Hcur Hd Hu) as Hn.
    set (q := {| range_ := range_ p; cursor_ := cursor_ p - 1;
                 state_ := <[pick := address_at p (cursor_ p)]> (state_ p);
                 done_ := false; generator_ := g' |}) in *.
    destruct (IH q) as (outs & q' & Hr & Hq' & Hd' & Hc').
    + apply (reachable_next r p q Hp). rewrite Hn. reflexivity.
    + simpl. lia.
    + lia.
    + reflexivity.
    + exists ((address_at p pick, false) :: outs), q'.
      split; [|auto]. simpl. rewrite Hn, Hr. reflexivity.
Qed.

(** For [2 <= N <= 2^31 + 1] the final-address case is met after [N - 1]
    calls, whatever the random source. *)
Lemma terminal_case_reached r g :
  well_formed r ->
  2 <= addrsInRange (start_ r) (end_ r) <= 2 ^ 31 + 1 ->
  exists outs q,
    run (Z.to_nat (addrsInRange (start_ r) (end_ r) - 1)) (construct r g)
      = Some (outs, q) /\
    reachable r q /\ done_ q = false /\ cursor_ q = 0.
Proof.
  intros Hwf HN.
  apply run_to_cursor_zero.
  - apply reachable_construct.
  - change (cursor_ (construct r g)) with (initial_cursor r).
    rewrite (initial_cursor_exact r Hwf) by lia. lia.
  - lia.
  - reflexivity.
Qed.

(** When the initial cursor exceeds [2^31] the final-address case is never
    met through calls with a defined result: the cursor cannot get past
    [2^31 + 1], where the bound of the distribution is [-2^31]. *)
Lemma terminal_case_unreachable r p :
  2 ^ 31 < initial_cursor r ->
  reachable r p ->
  done_ p = false /\ 2 ^ 31 < cursor_ p.
Proof.
  intros Hc0. induction 1 as [g|p q Hp [Hd Hc] Hq].
  - split; [reflexivity | exact Hc0].
  - destruct (reachable_invariant r p Hp) as [_ Hb _ _].
    pose proof (initial_cursor_range r) as Hir.
    destruct (state_after_next p q) as [Hd' _|_ Hz _|pick g' _ _ Hu ->];
      [lia | exact Hq | congruence | lia |].
    split; [reflexivity|]. simpl.
    apply uniform_int_distribution_bounds in Hu.
    destruct (Z.eq_dec (cursor_ p) (2 ^ 31 + 1)) as [E|E]; [|lia].
    rewrite E in Hu.
    assert (Hb31 : dist_upper (2 ^ 31 + 1) = - 2 ^ 31) by reflexivity.
    rewrite Hb31 in Hu. lia.
Qed.

(** ** Width of the cursor and the initial state *)

(** C7, as stated, fails on the whole IPv6 space: the count minus one is
    [2^128 - 1], the cursor built from it is [2^64 - 1]. *)
Lemma cursor_truncates_full_space :
  well_formed range_v6_all /\
  addrsInRange (start_ range_v6_all) (end_ range_v6_all) - 1 = 2 ^ 128 - 1 /\
  cursor_ (construct range_v6_all seed_zero) = 2 ^ 64 - 1 /\
  cursor_ (construct range_v6_all seed_zero) <>
    addrsInRange (start_ range_v6_all) (end_ range_v6_all) - 1.
Proof.
  split; [wf_range|]. split; [reflexivity|]. split; [reflexivity|].
  vm_compute. discriminate.
Qed.

(** C7 (as amended): the cursor and the positions kept in the table are
    unsigned 64-bit values.  The cursor the constructor builds is the
    address count minus one reduced modulo [2^64]; it equals the count
    minus one exactly when the range has at most [2^64] addresses, and no
    cap on the size of the range is applied. *)
Theorem cursor_is_64_bit (r : AddressRange) (g : Generator) :
  well_formed r ->
  0 <= cursor_ (construct r g) < 2 ^ 64 /\
  cursor_ (construct r g) = (addrsInRange (start_ r) (end_ r) - 1) mod 2 ^ 64 /\
  (cursor_ (construct r g) = addrsInRange (start_ r) (end_ r) - 1 <->
   addrsInRange (start_ r) (end_ r) <= 2 ^ 64) /\
  (forall p k, reachable r p -> is_Some (state_ p !! k) -> 0 <= k < 2 ^ 64).
Proof.
  intros Hwf. pose proof (initial_cursor_range r) as Hc0.
  split; [exact Hc0|]. split; [reflexivity|]. split.
  - change (cursor_ (construct r g))
      with (to_uint64 (addrsInRange (start_ r) (end_ r) - 1)).
    rewrite to_uint64_fixed.
    destruct Hwf as (_ & _ & Hle & _). unfold addrsInRange. lia.
  - intros p k Hp Hk. destruct (reachable_invariant r p Hp) as [_ _ Hkeys _].
    specialize (Hkeys k Hk). lia.
Qed.

Lemma cursor_is_64_bit_witness :
  well_formed range_v6_65 /\
  0 <= cursor_ (construct range_v6_65 seed_zero) < 2 ^ 64.
Proof.
  assert (Hwf : well_formed range_v6_65) by wf_range.
  split; [exact Hwf|].
  exact (proj1 (cursor_is_64_bit range_v6_65 seed_zero Hwf)).
Defined.

(** C8, as stated, fails on the IPv6 range of [2^64 + 1] addresses: the
    cursor of the fresh engine is 0, not [2^64]. *)
Lemma construct_cursor_wraps :
  well_formed range_v6_65 /\
  ~ (cursor_ (construct range_v6_65 seed_zero) =
       addrsInRange (start_ range_v6_65) (end_ range_v6_65) - 1 /\
     state_ (construct range_v6_65 seed_zero) = ∅ /\
     done_ (construct range_v6_65 seed_zero) = false).
Proof.
  split; [wf_range|]. intros [E _]. vm_compute in E. discriminate.
Qed.

(** C8 (as amended): for every well-formed range the constructor yields an
    engine (it is a total function) over that range with an empty table and
    the exhaustion flag unset; the cursor is the 64-bit value of the address
    count minus one, which is the address count minus one itself whenever
    the range has at most [2^64] addresses. *)
Theorem construct_initial_state (r : AddressRange) (g : Generator) :
  well_formed r ->
  range_ (construct r g) = r /\
  state_ (construct r g) = ∅ /\
  done_ (construct r g) = false /\
  generator_ (construct r g) = g /\
  cursor_ (construct r g) = to_uint64 (addrsInRange (start_ r) (end_ r) - 1) /\
  (addrsInRange (start_ r) (end_ r) <= 2 ^ 64 ->
   cursor_ (construct r g) = addrsInRange (start_ r) (end_ r) - 1).
Proof.
  intros Hwf. repeat split. intros HN. exact (initial_cursor_exact r Hwf HN).
Qed.

Lemma construct_initial_state_witness :
  well_formed range_A /\
  cursor_ (construct range_A seed_count) = 4 /\
  state_ (construct range_A seed_count) = ∅ /\
  done_ (construct range_A seed_count) = false.
Proof.
  assert (Hwf : well_formed range_A) by wf_range.
  destruct (construct_initial_state range_A seed_count Hwf)
    as (_ & Hs & Hd & _ & _ & Hc).
  split; [exact Hwf|]. split; [|split; [exact Hs | exact Hd]].
  rewrite Hc; [reflexivity | vm_compute; discriminate].
Defined.

(** ** Frame: who changes what *)

Lemma next_keeps_range p q :
  state_after (next p) = Some q -> range_ q = range_ p.
Proof.
  unfold next. destruct (done_ p); [intros [= <-]; reflexivity|].
  destruct (cursor_ p =? 0).
  - destruct (state_ p !! 0); intros [= <-]; reflexivity.
  - destruct (uniform_int_distribution _ _ _) as [[pick g']|]; [|discriminate].
    intros [= <-]. reflexivity.
Qed.

(** C9: a method call that changes the engine state (cursor, table, flag,
    generator or range) is a call of [next]; [exhausted] returns the flag and
    leaves the state as it was; and no call, [next] included, changes the
    stored range. *)
Theorem only_next_mutates (m : Method) (p q : AddressRangePermutation) :
  invoke m p = Some q ->
  (q <> p -> m = call_next) /\
  exhausted p = (done_ p, p) /\
  range_ q = range_ p.
Proof.
  intros Hq. split; [|split].
  - destruct m; [reflexivity|]. simpl in Hq. injection Hq as <-.
    intros Hne. contradiction.
  - reflexivity.
  - destruct m; simpl in Hq.
    + apply next_keeps_range. exact Hq.
    + injection Hq as <-. reflexivity.
Qed.

Lemma only_next_mutates_witness :
  range_ after_two_A = range_A /\
  exhausted (construct range_A seed_count)
    = (false, construct range_A seed_count).
Proof.
  split.
  - assert (E : invoke call_next (construct range_A seed_count)
                = Some (match run 1 (construct range_A seed_count) with
                        | Some (_, q) => q
                        | None => construct range_A seed_count
                        end)) by reflexivity.
    assert (E2 : invoke call_next
                   (match run 1 (construct range_A seed_count) with
                    | Some (_, q) => q
                    | None => construct range_A seed_count
                    end) = Some after_two_A) by reflexivity.
    rewrite (proj2 (proj2 (only_next_mutates _ _ _ E2))).
    exact (proj2 (proj2 (only_next_mutates _ _ _ E))).
  - exact (proj1 (proj2 (only_next_mutates call_exhausted
                           (construct range_A seed_count) _ eq_refl))).
Defined.

(** ** The full run is a permutation of the range *)

Lemma seqZ_1 m : seqZ m 1 = [m].
Proof. rewrite seqZ_cons by lia. rewrite seqZ_nil by lia. reflexivity. Qed.

#[local] Instance offsetAddress_inj a : Inj (=) (=) (offsetAddress a).
Proof. intros x y [= E]. lia. Qed.

Lemma NoDup_range_addresses r : NoDup (range_addresses r).
Proof. apply NoDup_fmap_2; [apply _ | apply NoDup_seqZ]. Qed.

(** [range_addresses] lists exactly the addresses of the range. *)
Lemma elem_of_range_addresses r a :
  a ∈ range_addresses r <->
  family a = family (start_ r) /\
  numeric (start_ r) <= numeric a <= numeric (end_ r).
Proof.
  unfold range_addresses, addrsInRange. rewrite list_elem_of_fmap. split.
  - intros (k & -> & Hk). apply elem_of_seqZ in Hk. simpl. split; [reflexivity | lia].
  - intros [Hf Hn]. exists (numeric a - numeric (start_ r)). split.
    + destruct a as [f n]. simpl in *. subst f. unfold offsetAddress. f_equal. lia.
    + apply elem_of_seqZ. lia.
Qed.

Lemma contents_construct r g :
  well_formed r -> addrsInRange (start_ r) (end_ r) <= 2 ^ 64 ->
  contents (construct r g) = range_addresses r.
Proof.
  intros Hwf HN. unfold contents, range_addresses.
  change (cursor_ (construct r g)) with (initial_cursor r).
  rewrite (initial_cursor_exact r Hwf HN), Z.sub_add.
  apply list_fmap_ext. intros _ k _. unfold address_at. simpl.
  rewrite lookup_empty. reflexivity.
Qed.

(** One general step takes the address at position [pick] out of the
    contents and moves the address at the cursor into its place. *)
Lemma contents_step p pick g' :
  0 <= pick <= cursor_ p - 1 ->
  address_at p pick ::
    contents {| range_ := range_ p; cursor_ := cursor_ p - 1;
                state_ := <[pick := address_at p (cursor_ p)]> (state_ p);
                done_ := false; generator_ := g' |}
  ≡ₚ contents p.
Proof.
  intros Hp. unfold contents. simpl.
  set (q := {| range_ := range_ p; cursor_ := cursor_ p - 1;
               state_ := <[pick := address_at p (cursor_ p)]> (state_ p);
               done_ := false; generator_ := g' |}).
  assert (Hne : forall k, k <> pick -> address_at q k = address_at p k).
  { intros k Hk. unfold address_at. simpl. rewrite lookup_insert_ne by auto.
    reflexivity. }
  assert (Heq : address_at q pick = address_at p (cursor_ p)).
  { unfold address_at at 1. simpl. rewrite lookup_insert_eq. reflexivity. }
  replace (cursor_ p - 1 + 1) with (pick + (1 + (cursor_ p - 1 - pick))) by lia.
  replace (cursor_ p + 1) with (pick + (1 + (cursor_ p - 1 - pick)) + 1) by lia.
  rewrite (seqZ_app 0 _ 1) by lia.
  rewrite !(seqZ_app 0 pick) by lia. rewrite !(seqZ_app (0 + pick) 1) by lia.
  rewrite !Z.add_0_l.
  replace (pick + (1 + (cursor_ p - 1 - pick))) with (cursor_ p) by lia.
  rewrite !seqZ_1, !fmap_app, !list_fmap_singleton, Heq.
  rewrite (list_fmap_ext (address_at q) (address_at p) (seqZ 0 pick)).
  2: { intros i k Hk. apply Hne. apply list_elem_of_lookup_2, elem_of_seqZ in Hk. lia. }
  rewrite (list_fmap_ext (address_at q) (address_at p) (seqZ (pick + 1) _)).
  2: { intros i k Hk. apply Hne. apply list_elem_of_lookup_2, elem_of_seqZ in Hk. lia. }
  solve_Permutation.
Qed.

Lemma run_S_returned n p a d p' outs q :
  next p = Returned a d p' ->
  run n p' = Some (outs, q) ->
  run (S n) p = Some ((a, d) :: outs, q).
Proof. intros Hn Hr. simpl. rewrite Hn, Hr. reflexivity. Qed.

(** From a live state whose cursor is [n <= 2^31] (with position 0 in the
    table when [n = 0]), [n + 1] calls return the contents in some order,
    the flag [done] being raised by the last call only. *)
Lemma run_from_cursor n : forall p,
  cursor_ p = Z.of_nat n ->
  Z.of_nat n <= 2 ^ 31 ->
  done_ p = false ->
  (n = 0%nat -> is_Some (state_ p !! 0)) ->
  exists outs q,
    run (S n) p = Some (outs, q) /\
    fst <$> outs ≡ₚ contents p /\
    snd <$> outs = replicate n false ++ [true] /\
    done_ q = true.
Proof.
  induction n as [|m IH]; intros p Hc Hm Hd Hz.
  - destruct (Hz eq_refl) as [a Ha].
    exists [(a, true)]. eexists. split; [|split; [|split]].
    + simpl. unfold next. rewrite Hd, Hc. simpl. rewrite Ha. reflexivity.
    + unfold contents. rewrite Hc. change (Z.of_nat 0 + 1) with 1.
      rewrite seqZ_1, !list_fmap_singleton. unfold address_at. rewrite Ha.
      reflexivity.
    + reflexivity.
    + reflexivity.
  - assert (Hcur : 0 < cursor_ p < 2 ^ 64) by lia.
    assert (Hhi : dist_upper (cursor_ p) = Z.of_nat m).
    { unfold dist_upper. rewrite to_uint64_small by lia.
      rewrite to_int_small; lia. }
    destruct (uniform_int_distribution_defined 0 (dist_upper (cursor_ p))
                (generator_ p)) as (pick & g' & Hu); [lia|].
    destruct (pick_in_range _ _ _ _ Hcur Hu) as [Hp _].
    pose proof (next_general p pick g' Hcur Hd Hu) as Hn.
    set (q := {| range_ := range_ p; cursor_ := cursor_ p - 1;
                 state_ := <[pick := address_at p (cursor_ p)]> (state_ p);
                 done_ := false; generator_ := g' |}) in *.
    destruct (IH q) as (outs & q' & Hr & Hperm & Hflags & Hdone).
    + simpl. lia.
    + lia.
    + reflexivity.
    + intros ->. assert (pick = 0) as -> by lia. simpl.
      rewrite lookup_insert_eq. eauto.
    + exists ((address_at p pick, false) :: outs), q'. split; [|split; [|split]].
      * exact (run_S_returned _ _ _ _ _ _ _ Hn Hr).
      * rewrite fmap_cons. simpl. rewrite Hperm. apply contents_step. exact Hp.
      * rewrite fmap_cons, Hflags. reflexivity.
      * exact Hdone.
Qed.

(** X13, exhaustiveness and uniqueness: for a well-formed range of [N] addresses,
    [2 <= N <= 2^31 + 1], and every random source, [N] calls of [next] all
    return; the addresses returned are pairwise distinct and are, up to
    order, the addresses of the range; [done] is [false] for the first
    [N - 1] calls and [true] for the last. *)
Theorem full_run_permutation (r : AddressRange) (g : Generator) :
  well_formed r ->
  2 <= addrsInRange (start_ r) (end_ r) <= 2 ^ 31 + 1 ->
  exists outs q,
    run (Z.to_nat (addrsInRange (start_ r) (end_ r))) (construct r g)
      = Some (outs, q) /\
    fst <$> outs ≡ₚ range_addresses r /\
    NoDup (fst <$> outs) /\
    snd <$> outs =
      replicate (Z.to_nat (addrsInRange (start_ r) (end_ r)) - 1) false ++ [true] /\
    done_ q = true.
Proof.
  intros Hwf HN.
  set (N := addrsInRange (start_ r) (end_ r)) in *.
  assert (HN64 : N <= 2 ^ 64) by lia.
  pose proof (initial_cursor_exact r Hwf HN64) as Hc0. fold N in Hc0.
  destruct (run_from_cursor (Z.to_nat (N - 1)) (construct r g))
    as (outs & q & Hr & Hperm & Hflags & Hdone).
  - change (cursor_ (construct r g)) with (initial_cursor r). lia.
  - lia.
  - reflexivity.
  - intros E. lia.
  - rewrite (contents_construct r g Hwf HN64) in Hperm.
    replace (S (Z.to_nat (N - 1))) with (Z.to_nat N) in Hr by lia.
    exists outs, q. split; [exact Hr|]. split; [exact Hperm|].
    split; [|split; [|exact Hdone]].
    + rewrite Hperm. apply NoDup_range_addresses.
    + rewrite Hflags. f_equal. f_equal. lia.
Qed.

Lemma full_run_permutation_witness :
  exists outs q,
    run 2 (construct range_C seed_count) = Some (outs, q) /\
    fst <$> outs ≡ₚ [mkAddr V6 (0x20010db8 * 2 ^ 96 + 1);
                     mkAddr V6 (0x20010db8 * 2 ^ 96 + 2)] /\
    snd <$> outs = [false; true].
Proof.
  destruct (full_run_permutation range_C seed_count)
    as (outs & q & Hr & Hp & _ & Hf & _).
  - wf_range.
  - vm_compute. split; discriminate.
  - exists outs, q. split; [exact Hr|]. split; [exact Hp | exact Hf].
Defined.

(** * Further properties of the engine *)

(** ** When [next] returns, throws, or has no defined result *)

(** The ways in which a call can return. *)
Lemma next_returned_inv p a d q :
  0 <= cursor_ p < 2 ^ 64 ->
  next p = Returned a d q ->
  (done_ p = true /\ d = true /\ q = p /\
   a = family_zero (family (start_ (range_ p)))) \/
  (done_ p = false /\ cursor_ p = 0 /\ d = true /\ state_ p !! 0 = Some a /\
   q = {| range_ := range_ p; cursor_ := cursor_ p; state_ := state_ p;
          done_ := true; generator_ := generator_ p |}) \/
  (done_ p = false /\ 0 < cursor_ p /\ d = false /\
   exists pick g',
     uniform_int_distribution 0 (dist_upper (cursor_ p)) (generator_ p)
       = Some (pick, g') /\
     0 <= pick <= cursor_ p - 1 /\
     a = address_at p pick /\
     q = {| range_ := range_ p; cursor_ := cursor_ p - 1;
            state_ := <[pick := address_at p (cursor_ p)]> (state_ p);
            done_ := false; generator_ := g' |}).
Proof.
  intros Hc Hn. destruct (done_ p) eqn:Hd.
  - rewrite (next_done p Hd) in Hn. injection Hn as <- <- <-. left. auto.
  - destruct (Z.eq_dec (cursor_ p) 0) as [E|E].
    + right; left. unfold next in Hn. rewrite Hd, E in Hn. simpl in Hn.
      destruct (state_ p !! 0) as [a0|] eqn:H0; [|discriminate].
      injection Hn as <- <- <-. rewrite E. auto.
    + right; right.
      destruct (uniform_int_distribution 0 (dist_upper (cursor_ p))
                  (generator_ p)) as [[pick g']|] eqn:Hu.
      * assert (Hcur : 0 < cursor_ p < 2 ^ 64) by lia.
        rewrite (next_general p pick g' Hcur Hd Hu) in Hn.
        injection Hn as <- <- <-.
        destruct (pick_in_range _ _ _ _ Hcur Hu) as [Hp _].
        split; [reflexivity|]. split; [lia|]. split; [reflexivity|].
        exists pick, g'. auto.
      * unfold next in Hn. rewrite Hd in Hn.
        destruct (Z.eqb_spec (cursor_ p) 0); [lia|].
        rewrite Hu in Hn. discriminate.
Qed.

Lemma next_throws_iff p :
  (exists d q, next p = OutOfRange d q) <->
  done_ p = false /\ cursor_ p = 0 /\ state_ p !! 0 = None.
Proof.
  unfold next. split.
  - intros (d & q & Hn). destruct (done_ p); [discriminate|].
    destruct (Z.eqb_spec (cursor_ p) 0) as [E|E].
    + destruct (state_ p !! 0); [discriminate | auto].
    + destruct (uniform_int_distribution _ _ _) as [[? ?]|]; discriminate.
  - intros (Hd & Hc & H0). rewrite Hd, Hc, H0. simpl. eauto.
Qed.

Lemma to_int_negative z : to_int z < 0 <-> 2 ^ 31 <= z mod 2 ^ 32.
Proof.
  unfold to_int.
  pose proof (Z.mod_pos_bound z (2 ^ 32)) as Hz.
  pose proof (Z.mod_pos_bound (z + 2 ^ 31) (2 ^ 32)) as Hs.
  assert (E : (z + 2 ^ 31) mod 2 ^ 32 =
              (z mod 2 ^ 32 + 2 ^ 31) mod 2 ^ 32)
    by (rewrite Zplus_mod_idemp_l; reflexivity).
  rewrite E. clear E Hs.
  destruct (Z_lt_le_dec (z mod 2 ^ 32) (2 ^ 31)) as [Hlt|Hge].
  - rewrite Z.mod_small by lia. lia.
  - replace (z mod 2 ^ 32 + 2 ^ 31)
      with (z mod 2 ^ 32 - 2 ^ 31 + 1 * 2 ^ 32) by lia.
    rewrite Z.mod_add by lia. rewrite Z.mod_small by lia. lia.
Qed.

Lemma next_undefined_char p :
  0 <= cursor_ p < 2 ^ 64 ->
  (next p = Undefined <->
   done_ p = false /\ cursor_ p <> 0 /\ 2 ^ 31 <= (cursor_ p - 1) mod 2 ^ 32).
Proof.
  intros Hc. split.
  - intros Hn. destruct (done_ p) eqn:Hd.
    { rewrite (next_done p Hd) in Hn. discriminate. }
    destruct (Z.eq_dec (cursor_ p) 0) as [E|E].
    { unfold next in Hn. rewrite Hd, E in Hn. simpl in Hn.
      destruct (state_ p !! 0); discriminate. }
    split; [reflexivity|]. split; [exact E|].
    apply to_int_negative.
    destruct (Z_lt_le_dec (to_int (cursor_ p - 1)) 0) as [Hneg|Hpos]; [exact Hneg|].
    destruct (uniform_int_distribution_defined 0 (dist_upper (cursor_ p))
                (generator_ p)) as (pick & g' & Hu).
    { unfold dist_upper. rewrite to_uint64_small by lia. exact Hpos. }
    rewrite (next_general p pick g') in Hn by (auto; lia). discriminate.
  - intros (Hd & E & Hbit). unfold next. rewrite Hd.
    destruct (Z.eqb_spec (cursor_ p) 0); [contradiction|].
    rewrite uniform_int_distribution_undefined; [reflexivity|].
    unfold dist_upper. rewrite to_uint64_small by lia.
    apply to_int_negative. exact Hbit.
Qed.

(** X4: a call of [next] has no defined result exactly when the engine is
    live, the cursor is not 0 and bit 31 of [cursor - 1] is set, that is
    when [(cursor - 1) mod 2^32 >= 2^31]. *)
Theorem next_undefined_iff (p : AddressRangePermutation) :
  0 <= cursor_ p < 2 ^ 64 ->
  (next p = Undefined <->
   done_ p = false /\ cursor_ p <> 0 /\ 2 ^ 31 <= (cursor_ p - 1) mod 2 ^ 32).
Proof. exact (next_undefined_char p). Qed.

Lemma next_undefined_iff_witness :
  next (construct range_v6_prefix64 seed_zero) = Undefined.
Proof.
  apply (next_undefined_iff (construct range_v6_prefix64 seed_zero)).
  - vm_compute. split; [discriminate | reflexivity].
  - split; [reflexivity|]. split; vm_compute; discriminate.
Defined.

(** X5: for every well-formed range of exactly [2^k] addresses with
    [32 <= k <= 64] (the whole IPv4 space, every IPv6 prefix from /96 to
    /64) the first call of [next] has no defined result: the upper bound of
    the distribution is [-2]. *)
Theorem power_of_two_range_undefined (r : AddressRange) (g : Generator) (k : Z) :
  well_formed r ->
  32 <= k <= 64 ->
  addrsInRange (start_ r) (end_ r) = 2 ^ k ->
  dist_upper (cursor_ (construct r g)) = -2 /\
  next (construct r g) = Undefined.
Proof.
  intros Hwf Hk HN.
  assert (Hpow : 2 ^ k = 2 ^ (k - 32) * 2 ^ 32)
    by (rewrite <- Z.pow_add_r by lia; f_equal; lia).
  assert (Hm : 1 <= 2 ^ (k - 32) <= 2 ^ 32).
  { split; [pose proof (Z.pow_pos_nonneg 2 (k - 32)); lia|].
    apply Z.pow_le_mono_r; lia. }
  assert (Hc : cursor_ (construct r g) = 2 ^ k - 1).
  { change (cursor_ (construct r g)) with (initial_cursor r).
    rewrite initial_cursor_exact by (auto; nia). lia. }
  assert (Hmod : (2 ^ k - 1 - 1) mod 2 ^ 32 = 2 ^ 32 - 2).
  { replace (2 ^ k - 1 - 1) with (2 ^ 32 - 2 + (2 ^ (k - 32) - 1) * 2 ^ 32) by lia.
    rewrite Z.mod_add by lia. apply Z.mod_small. lia. }
  split.
  - rewrite Hc. unfold dist_upper. rewrite to_uint64_small by nia.
    unfold to_int.
    replace (2 ^ k - 1 - 1 + 2 ^ 31)
      with (2 ^ 31 - 2 + 2 ^ (k - 32) * 2 ^ 32) by lia.
    rewrite Z.mod_add by lia. rewrite Z.mod_small by lia. lia.
  - apply next_undefined_char.
    + rewrite Hc. nia.
    + split; [reflexivity|]. rewrite Hc. split; [nia|]. rewrite Hmod. lia.
Qed.

Lemma power_of_two_range_undefined_witness :
  next (construct range_v6_prefix88 seed_count) = Undefined.
Proof.
  apply (power_of_two_range_undefined range_v6_prefix88 seed_count 40).
  - wf_range.
  - split; vm_compute; discriminate.
  - reflexivity.
Defined.

(** X1: on every well-formed range of exactly one address the first call of
    [next] leaves through the failed lookup with the exhaustion flag set,
    and from then on every call returns the zero address: the address of
    the range is never produced. *)
Theorem single_address_range_throws (r : AddressRange) (g : Generator) (n : nat) :
  well_formed r ->
  addrsInRange (start_ r) (end_ r) = 1 ->
  let q := {| range_ := r; cursor_ := 0; state_ := ∅; done_ := true;
              generator_ := g |} in
  next (construct r g) = OutOfRange true q /\
  run n q = Some (replicate n (family_zero (family (start_ r)), true), q).
Proof.
  intros Hwf HN q. split.
  - unfold next, construct. simpl. rewrite HN. reflexivity.
  - apply (run_done q n). reflexivity.
Qed.

Lemma single_address_range_throws_witness :
  next (construct range_B seed_count) =
    OutOfRange true
      {| range_ := range_B; cursor_ := 0; state_ := ∅; done_ := true;
         generator_ := seed_count |}.
Proof.
  refine (proj1 (single_address_range_throws range_B seed_count 2 _ _)).
  - wf_range.
  - reflexivity.
Defined.

Lemma no_keys_empty (m : gmap Z IOAddress) :
  (forall k, is_Some (m !! k) -> 0 <= k < 0) -> m = ∅.
Proof.
  intros Hk. apply map_empty. intros k.
  destruct (m !! k) as [a|] eqn:E; [|reflexivity].
  assert (0 <= k < 0) by (apply Hk; eauto). lia.
Qed.

(** X2: in the reachable states of an engine over a well-formed range of at
    most [2^64] addresses, [next] throws only in one situation: the range has
    a single address and the engine is fresh (live, cursor 0, empty table);
    the call then sets both [done] and the exhaustion flag. *)
Theorem next_throws_only_fresh_single
    (r : AddressRange) (p q : AddressRangePermutation) (d : bool) :
  well_formed r ->
  addrsInRange (start_ r) (end_ r) <= 2 ^ 64 ->
  reachable r p ->
  next p = OutOfRange d q ->
  addrsInRange (start_ r) (end_ r) = 1 /\
  done_ p = false /\ cursor_ p = 0 /\ state_ p = ∅ /\
  d = true /\ done_ q = true.
Proof.
  intros Hwf HN Hp Hn.
  destruct (reachable_invariant r p Hp) as [_ _ Hk Hz].
  destruct (proj1 (next_throws_iff p)) as (Hd & Hc & H0); [eauto|].
  assert (Hc0 : initial_cursor r = 0).
  { destruct (Z.eq_dec (initial_cursor r) 0) as [E|E]; [exact E|].
    destruct (Hz Hd Hc E) as [a Ha]. congruence. }
  rewrite (initial_cursor_exact r Hwf HN) in Hc0.
  split; [lia|]. split; [exact Hd|]. split; [exact Hc|].
  split.
  - apply no_keys_empty. intros k Hs. specialize (Hk k Hs).
    rewrite (initial_cursor_exact r Hwf HN) in Hk. lia.
  - unfold next in Hn. rewrite Hd, Hc, H0 in Hn. simpl in Hn.
    injection Hn as <- <-. auto.
Qed.

Lemma next_throws_only_fresh_single_witness :
  addrsInRange (start_ range_B) (end_ range_B) = 1 /\
  state_ (construct range_B seed_zero) = ∅.
Proof.
  destruct (next_throws_only_fresh_single range_B (construct range_B seed_zero)
              {| range_ := range_B; cursor_ := 0; state_ := ∅; done_ := true;
                 generator_ := seed_zero |} true)
    as (HN & _ & _ & Hs & _).
  - wf_range.
  - vm_compute. discriminate.
  - apply reachable_construct.
  - reflexivity.
  - split; [exact HN | exact Hs].
Defined.

(** X3: over a well-formed range of [2 <= N <= 2^31 + 1] addresses every
    call of [next], in every reachable state (also after exhaustion),
    returns: it neither throws nor has undefined behaviour. *)
Theorem next_returns_on_small_ranges (r : AddressRange) (p : AddressRangePermutation) :
  well_formed r ->
  2 <= addrsInRange (start_ r) (end_ r) <= 2 ^ 31 + 1 ->
  reachable r p ->
  exists a d q, next p = Returned a d q.
Proof.
  intros Hwf HN Hp.
  destruct (reachable_invariant r p Hp) as [_ Hc _ Hz].
  rewrite (initial_cursor_exact r Hwf) in Hc, Hz by lia.
  destruct (done_ p) eqn:Hd.
  - rewrite (next_done p Hd). eauto.
  - destruct (Z.eq_dec (cursor_ p) 0) as [E|E].
    + destruct Hz as [a Ha]; [reflexivity | exact E | lia |].
      unfold next. rewrite Hd, E. simpl. rewrite Ha. eauto.
    + destruct (uniform_int_distribution_defined 0 (dist_upper (cursor_ p))
                  (generator_ p)) as (pick & g' & Hu).
      { unfold dist_upper. rewrite to_uint64_small by lia.
        rewrite to_int_small; lia. }
      rewrite (next_general p pick g') by (auto; lia). eauto.
Qed.

Lemma next_returns_on_small_ranges_witness :
  exists a d q, next after_two_A = Returned a d q.
Proof.
  apply (next_returns_on_small_ranges range_A after_two_A).
  - wf_range.
  - vm_compute. split; discriminate.
  - apply (run_reachable range_A 2 (construct range_A seed_count)
             [(ipv4 192 0 2 4, false); (ipv4 192 0 2 2, false)]).
    + apply reachable_construct.
    + reflexivity.
Defined.

(** ** The [done] output and [exhausted] *)

(** X6: whenever a call of [next] hands control back (by returning or by
    throwing), the value it gave to [done] is what [exhausted] reports
    afterwards; and an engine that was exhausted before the call is
    exhausted after it. *)
Theorem done_matches_exhausted
    (p q : AddressRangePermutation) (a : IOAddress) (d : bool) :
  next p = Returned a d q \/ next p = OutOfRange d q ->
  fst (exhausted q) = d /\
  (fst (exhausted p) = true -> fst (exhausted q) = true).
Proof.
  unfold exhausted, next. simpl. intros Hn.
  destruct (done_ p) eqn:Hd.
  - destruct Hn as [Hn|Hn]; simplify_eq. auto.
  - split; [|discriminate].
    destruct (cursor_ p =? 0).
    + destruct (state_ p !! 0); destruct Hn as [Hn|Hn]; simplify_eq;
        reflexivity.
    + destruct (uniform_int_distribution _ _ _) as [[pick g']|];
        destruct Hn as [Hn|Hn]; simplify_eq; reflexivity.
Qed.

Lemma done_matches_exhausted_witness :
  fst (exhausted exhausted_A) = true.
Proof.
  refine (proj1 (done_matches_exhausted exhausted_A exhausted_A
                   IPV4_ZERO_ADDRESS true _)).
  left. reflexivity.
Defined.

(** ** Partial runs *)

Lemma run_length n : forall p outs q,
  run n p = Some (outs, q) -> length outs = n.
Proof.
  induction n as [|n IH]; simpl; intros p outs q Hr.
  - injection Hr as <- _. reflexivity.
  - destruct (next p) as [a d p'| |]; try discriminate.
    destruct (run n p') as [[outs' q']|] eqn:Hr'; [|discriminate].
    injection Hr as <- _. simpl. f_equal. exact (IH _ _ _ Hr').
Qed.

Lemma live_construct r g :
  well_formed r -> addrsInRange (start_ r) (end_ r) <= 2 ^ 64 ->
  live_invariant r [] (construct r g).
Proof.
  intros Hwf HN. pose proof (initial_cursor_range r).
  split; simpl; fold (initial_cursor r).
  - reflexivity.
  - reflexivity.
  - lia.
  - lia.
  - rewrite (contents_construct r g Hwf HN). reflexivity.
  - intros j [a Ha]. rewrite lookup_empty in Ha. discriminate.
  - intros i a d Hi. discriminate.
Qed.

Lemma live_NoDup r hist p :
  live_invariant r hist p -> NoDup ((fst <$> hist) ++ contents p).
Proof. intros [_ _ _ _ Hc _ _]. rewrite Hc. apply NoDup_range_addresses. Qed.

(** A general step keeps the invariant, with its result added to the
    history. *)
Lemma live_general r hist p a d q :
  live_invariant r hist p ->
  0 < cursor_ p ->
  next p = Returned a d q ->
  d = false /\ live_invariant r (hist ++ [(a, d)]) q.
Proof.
  intros HL Hpos Hn. pose proof (live_NoDup r hist p HL) as Hnd.
  destruct HL as [Hd Hr Hc Hc0 Hperm Hpicked Hhist].
  pose proof (initial_cursor_range r) as Hir.
  destruct (next_returned_inv p a d q) as [(Hd' & _)|[(_ & E & _)|(_ & _ & -> & pick & g' & Hu & Hp & -> & ->)]];
    [lia | exact Hn | congruence | lia |].
  split; [reflexivity|].
  pose proof (contents_step p pick g' Hp) as Hstep.
  set (q := {| range_ := range_ p; cursor_ := cursor_ p - 1;
               state_ := <[pick := address_at p (cursor_ p)]> (state_ p);
               done_ := false; generator_ := g' |}) in *.
  assert (Hin : address_at p pick ∈ contents p).
  { rewrite <- Hstep. apply list_elem_of_here. }
  split.
  - reflexivity.
  - exact Hr.
  - simpl. rewrite length_app. simpl. lia.
  - simpl. lia.
  - rewrite fmap_app, <- app_assoc. simpl. rewrite Hstep. exact Hperm.
  - intros j Hj. rewrite fmap_app, elem_of_app. simpl in Hj.
    rewrite lookup_insert in Hj. case_decide as E.
    + subst j. destruct (state_ p !! pick) as [b|] eqn:Hb.
      * left. apply Hpicked. rewrite Hb. eauto.
      * right. simpl. apply list_elem_of_singleton.
        unfold address_at. rewrite Hb, Hr. reflexivity.
    + left. apply Hpicked. exact Hj.
  - intros i a' d' Hi. apply lookup_snoc_Some in Hi.
    destruct Hi as [[_ Hi]|[-> [= <- <-]]]; [exact (Hhist i a' d' Hi)|].
    split; [reflexivity|].
    replace (initial_cursor r - Z.of_nat (length hist)) with (cursor_ p) by lia.
    intros Habs.
    destruct (state_ p !! cursor_ p) as [b|] eqn:Hb.
    + apply NoDup_app in Hnd. destruct Hnd as (_ & Hdisj & _).
      apply (Hdisj (address_at p pick)); [|exact Hin].
      rewrite Habs. apply Hpicked. rewrite Hb. eauto.
    + assert (Hq : address_at p pick ∈ contents q).
      { unfold contents. apply list_elem_of_fmap. exists pick. split.
        - unfold address_at at 2. simpl. rewrite lookup_insert_eq.
          rewrite Habs. unfold address_at. rewrite Hb, Hr. reflexivity.
        - apply elem_of_seqZ. simpl. lia. }
      apply NoDup_app in Hnd. destruct Hnd as (_ & _ & Hnd).
      rewrite <- Hstep in Hnd. apply NoDup_cons in Hnd. tauto.
Qed.

(** The call of the final-address branch, when it returns, completes the
    history. *)
Lemma live_final r hist p a d q :
  live_invariant r hist p ->
  cursor_ p = 0 ->
  next p = Returned a d q ->
  final_invariant r (hist ++ [(a, d)]) q.
Proof.
  intros HL Hzero Hn. pose proof (live_NoDup r hist p HL) as Hnd.
  destruct HL as [Hd Hr Hc Hc0 Hperm Hpicked Hhist].
  pose proof (initial_cursor_range r) as Hir.
  destruct (next_returned_inv p a d q) as [(Hd' & _)|[(_ & _ & -> & Ha & ->)|(_ & E & _)]];
    [lia | exact Hn | congruence | | lia].
  assert (Hcont : contents p = [a]).
  { unfold contents. rewrite Hzero. change (0 + 1) with 1.
    rewrite seqZ_1, list_fmap_singleton. unfold address_at. rewrite Ha.
    reflexivity. }
  rewrite Hcont in Hperm, Hnd.
  split.
  - reflexivity.
  - exact Hzero.
  - rewrite length_app. simpl. lia.
  - rewrite fmap_app. exact Hperm.
  - intros i a' d' Hi. apply lookup_snoc_Some in Hi.
    destruct Hi as [[Hlt Hi]|[-> [= <- <-]]].
    + destruct (Hhist i a' d' Hi) as [-> Hne]. split; [|exact Hne].
      split; [discriminate | lia].
    + split; [split; [lia | reflexivity]|].
      replace (initial_cursor r - Z.of_nat (length hist)) with 0 by lia.
      intros Habs. apply NoDup_app in Hnd. destruct Hnd as (_ & Hdisj & _).
      apply (Hdisj a); [|apply list_elem_of_here].
      rewrite Habs. apply Hpicked. rewrite Ha. eauto.
Qed.

(** Runs that stay within the first [N] calls keep one of the two
    invariants. *)
Lemma run_live r n : forall hist p outs q,
  live_invariant r hist p ->
  run n p = Some (outs, q) ->
  Z.of_nat (length hist) + Z.of_nat n <= initial_cursor r + 1 ->
  live_invariant r (hist ++ outs) q \/ final_invariant r (hist ++ outs) q.
Proof.
  induction n as [|n IH]; intros hist p outs q HL Hr Hlen.
  - simpl in Hr. injection Hr as <- <-. rewrite app_nil_r. left. exact HL.
  - simpl in Hr. destruct (next p) as [a d p'| |] eqn:Hn; try discriminate.
    destruct (run n p') as [[outs' q']|] eqn:Hr'; [|discriminate].
    injection Hr as <- <-.
    replace (hist ++ (a, d) :: outs') with ((hist ++ [(a, d)]) ++ outs')
      by (rewrite <- app_assoc; reflexivity).
    destruct (Z.eq_dec (cursor_ p) 0) as [E|E].
    + pose proof (live_final r hist p a d p' HL E Hn) as HF.
      assert (n = 0%nat) as -> by (destruct HL; lia).
      simpl in Hr'. injection Hr' as <- <-. rewrite app_nil_r. right. exact HF.
    + destruct (live_general r hist p a d p' HL) as [_ HL'];
        [destruct HL; lia | exact Hn |].
      apply (IH _ p'); [exact HL' | exact Hr' |].
      rewrite length_app. simpl. lia.
Qed.

Lemma run_prefix_invariant r g n outs q :
  well_formed r ->
  addrsInRange (start_ r) (end_ r) <= 2 ^ 64 ->
  Z.of_nat n <= addrsInRange (start_ r) (end_ r) ->
  run n (construct r g) = Some (outs, q) ->
  live_invariant r outs q \/ final_invariant r outs q.
Proof.
  intros Hwf HN Hn Hr.
  apply (run_live r n [] (construct r g) outs q).
  - apply live_construct; assumption.
  - exact Hr.
  - rewrite (initial_cursor_exact r Hwf HN). simpl. lia.
Qed.

(** X7: over a well-formed range of [N <= 2^64] addresses, whenever the
    first [n <= N] calls of [next] all return, the addresses they return are
    pairwise distinct addresses of the range, [done] is set by the [N]-th
    call and by no earlier one, [exhausted] is true afterwards exactly when
    [n = N], and before that the cursor is [N - 1 - n]. *)
Theorem partial_run_prefix
    (r : AddressRange) (g : Generator) (n : nat)
    (outs : list (IOAddress * bool)) (q : AddressRangePermutation) :
  well_formed r ->
  addrsInRange (start_ r) (end_ r) <= 2 ^ 64 ->
  Z.of_nat n <= addrsInRange (start_ r) (end_ r) ->
  run n (construct r g) = Some (outs, q) ->
  NoDup (fst <$> outs) /\
  (forall a, a ∈ fst <$> outs -> in_range r a) /\
  (forall i a d, outs !! i = Some (a, d) ->
     (d = true <-> Z.of_nat i = addrsInRange (start_ r) (end_ r) - 1)) /\
  (fst (exhausted q) = true <-> Z.of_nat n = addrsInRange (start_ r) (end_ r)) /\
  (Z.of_nat n < addrsInRange (start_ r) (end_ r) ->
   cursor_ q = addrsInRange (start_ r) (end_ r) - 1 - Z.of_nat n).
Proof.
  intros Hwf HN Hn Hr.
  pose proof (run_length n _ _ _ Hr) as Hlen.
  pose proof (initial_cursor_exact r Hwf HN) as Hc0.
  destruct (run_prefix_invariant r g n outs q Hwf HN Hn Hr) as [HL|HF].
  - pose proof (live_NoDup r outs q HL) as Hnd.
    destruct HL as [Hd _ Hc Hpos Hperm _ Hhist].
    rewrite Hlen, Hc0 in Hc.
    split; [apply NoDup_app in Hnd; tauto|].
    split; [|split; [|split]].
    + intros a Ha. apply elem_of_range_addresses. rewrite <- Hperm.
      apply elem_of_app. left. exact Ha.
    + intros i a d Hi. destruct (Hhist i a d Hi) as [-> _].
      apply lookup_lt_Some in Hi. split; [discriminate | lia].
    + unfold exhausted. simpl. rewrite Hd. split; [discriminate | lia].
    + intros _. exact Hc.
  - destruct HF as [Hd Hzero Hl Hperm Hhist]. rewrite Hlen, Hc0 in Hl.
    split; [rewrite Hperm; apply NoDup_range_addresses|].
    split; [|split; [|split]].
    + intros a Ha. apply elem_of_range_addresses. rewrite <- Hperm. exact Ha.
    + intros i a d Hi. rewrite <- Hc0. exact (proj1 (Hhist i a d Hi)).
    + unfold exhausted. simpl. rewrite Hd. split; [lia | reflexivity].
    + lia.
Qed.

Lemma partial_run_prefix_witness :
  NoDup [ipv4 192 0 2 4; ipv4 192 0 2 2] /\ cursor_ after_two_A = 2.
Proof.
  destruct (partial_run_prefix range_A seed_count 2
              [(ipv4 192 0 2 4, false); (ipv4 192 0 2 2, false)] after_two_A)
    as (Hnd & _ & _ & _ & Hc).
  - wf_range.
  - vm_compute. discriminate.
  - vm_compute. discriminate.
  - reflexivity.
  - split; [exact Hnd|]. apply Hc. vm_compute. reflexivity.
Defined.

(** X8: the call made while the cursor is at position [c] never returns the
    natural address [start + c] of that position: over a well-formed range
    of [N <= 2^64] addresses the call number [i] (counting from 0, [i < N])
    never returns [start + (N - 1 - i)].  In particular the first call
    never returns the last address of the range and the [N]-th call never
    returns the first one. *)
Theorem never_returns_natural_of_cursor
    (r : AddressRange) (g : Generator) (n i : nat)
    (outs : list (IOAddress * bool)) (q : AddressRangePermutation)
    (a : IOAddress) (d : bool) :
  well_formed r ->
  addrsInRange (start_ r) (end_ r) <= 2 ^ 64 ->
  Z.of_nat n <= addrsInRange (start_ r) (end_ r) ->
  run n (construct r g) = Some (outs, q) ->
  outs !! i = Some (a, d) ->
  a <> offsetAddress (start_ r)
         (addrsInRange (start_ r) (end_ r) - 1 - Z.of_nat i).
Proof.
  intros Hwf HN Hn Hr Hi.
  rewrite <- (initial_cursor_exact r Hwf HN).
  destruct (run_prefix_invariant r g n outs q Hwf HN Hn Hr) as [HL|HF].
  - destruct HL as [_ _ _ _ _ _ Hhist]. exact (proj2 (Hhist i a d Hi)).
  - destruct HF as [_ _ _ _ Hhist]. exact (proj2 (Hhist i a d Hi)).
Qed.

Lemma never_returns_natural_of_cursor_witness :
  ipv4 192 0 2 3 <> ipv4 192 0 2 1.
Proof.
  apply (never_returns_natural_of_cursor range_A seed_count 5 4
           [(ipv4 192 0 2 4, false); (ipv4 192 0 2 2, false);
            (ipv4 192 0 2 5, false); (ipv4 192 0 2 1, false);
            (ipv4 192 0 2 3, true)] exhausted_A (ipv4 192 0 2 3) true).
  - wf_range.
  - vm_compute. discriminate.
  - vm_compute. discriminate.
  - reflexivity.
  - reflexivity.
Defined.

(** The two ends of X8, read on single calls. *)
Lemma first_call_never_returns_end r g a d q :
  well_formed r ->
  addrsInRange (start_ r) (end_ r) <= 2 ^ 64 ->
  next (construct r g) = Returned a d q ->
  a <> end_ r.
Proof.
  intros Hwf HN Hnext.
  assert (Hr : run 1 (construct r g) = Some ([(a, d)], q))
    by (simpl; rewrite Hnext; reflexivity).
  assert (Hn : Z.of_nat 1 <= addrsInRange (start_ r) (end_ r))
    by (destruct Hwf as (_ & _ & Hle & _); unfold addrsInRange; lia).
  destruct (run_prefix_invariant r g 1 _ q Hwf HN Hn Hr) as [HL|HF].
  - destruct HL as [_ _ _ _ _ _ Hhist].
    destruct (Hhist 0%nat a d eq_refl) as [_ Hne].
    rewrite (initial_cursor_exact r Hwf HN) in Hne. intros ->. apply Hne.
    destruct Hwf as (Hf & _). destruct (end_ r) as [f e]. simpl in *.
    unfold offsetAddress, addrsInRange. simpl. rewrite Hf. f_equal. lia.
  - destruct HF as [_ _ _ _ Hhist].
    destruct (Hhist 0%nat a d eq_refl) as [_ Hne].
    rewrite (initial_cursor_exact r Hwf HN) in Hne. intros ->. apply Hne.
    destruct Hwf as (Hf & _). destruct (end_ r) as [f e]. simpl in *.
    unfold offsetAddress, addrsInRange. simpl. rewrite Hf. f_equal. lia.
Qed.

(** ** What [next] returns and what the table holds *)

Lemma offset_in_range r pos :
  well_formed r ->
  0 <= pos <= initial_cursor r ->
  in_range r (offsetAddress (start_ r) pos).
Proof.
  intros Hwf Hpos. pose proof (initial_cursor_le r Hwf) as Hle.
  unfold in_range, offsetAddress, addrsInRange in *. simpl.
  split; [reflexivity | lia].
Qed.

Lemma address_at_in_range r p pos :
  well_formed r ->
  range_ p = r ->
  (forall k a, state_ p !! k = Some a -> in_range r a) ->
  0 <= pos <= initial_cursor r ->
  in_range r (address_at p pos).
Proof.
  intros Hwf Hr Hv Hpos. unfold address_at.
  destruct (state_ p !! pos) as [a|] eqn:Ha.
  - exact (Hv pos a Ha).
  - rewrite Hr. apply offset_in_range; assumption.
Qed.

Lemma reachable_values r p :
  well_formed r -> reachable r p ->
  forall k a, state_ p !! k = Some a -> in_range r a.
Proof.
  intros Hwf. induction 1 as [g|p q Hp IH Hq]; intros k a Hk.
  - simpl in Hk. rewrite lookup_empty in Hk. discriminate.
  - destruct (reachable_invariant r p Hp) as [Hr Hc _ _].
    pose proof (initial_cursor_range r) as Hir.
    destruct (state_after_next p q) as [_ ->|_ _ ->|pick g' _ _ _ ->];
      [lia | exact Hq | eauto | simpl in Hk; eauto |].
    simpl in Hk. rewrite lookup_insert in Hk. case_decide as E.
    + injection Hk as <-. apply address_at_in_range; auto.
    + eauto.
Qed.

(** X9: over a well-formed range, in every reachable state, an address that
    [next] returns is an address of the range while the engine is live, and
    the zero address of the range's family once it is exhausted. *)
Theorem returned_address_in_range
    (r : AddressRange) (p q : AddressRangePermutation) (a : IOAddress) (d : bool) :
  well_formed r ->
  reachable r p ->
  next p = Returned a d q ->
  (done_ p = false /\ in_range r a) \/
  (done_ p = true /\ a = family_zero (family (start_ r))).
Proof.
  intros Hwf Hp Hn.
  destruct (reachable_invariant r p Hp) as [Hr Hc _ _].
  pose proof (initial_cursor_range r) as Hir.
  pose proof (reachable_values r p Hwf Hp) as Hv.
  destruct (next_returned_inv p a d q) as
    [(Hd & _ & _ & ->)|[(Hd & _ & _ & Ha & _)|(Hd & _ & _ & pick & g' & _ & Hpick & -> & _)]];
    [lia | exact Hn | | |].
  - right. rewrite Hr. auto.
  - left. split; [exact Hd | exact (Hv 0 a Ha)].
  - left. split; [exact Hd|]. apply address_at_in_range; auto. lia.
Qed.

Lemma returned_address_in_range_witness :
  in_range range_A (ipv4 192 0 2 5).
Proof.
  destruct (returned_address_in_range range_A after_two_A
              {| range_ := range_A; cursor_ := 1;
                 state_ := <[1 := ipv4 192 0 2 3]> (state_ after_two_A);
                 done_ := false;
                 generator_ := mkGen (mt_out seed_count) 3 |}
              (ipv4 192 0 2 5) false) as [[_ Hin]|[Hd _]].
  - wf_range.
  - apply (run_reachable range_A 2 (construct range_A seed_count)
             [(ipv4 192 0 2 4, false); (ipv4 192 0 2 2, false)]).
    + apply reachable_construct.
    + reflexivity.
  - reflexivity.
  - exact Hin.
  - discriminate Hd.
Defined.

Lemma next_step_keys p q k :
  next_step p q -> is_Some (state_ p !! k) -> is_Some (state_ q !! k).
Proof.
  intros [_ ->|_ _ ->|pick g' _ _ _ ->]; simpl; auto.
  intros Hk. rewrite lookup_insert. case_decide; [eauto | exact Hk].
Qed.

Lemma run_table r n : forall p outs q,
  reachable r p ->
  run n p = Some (outs, q) ->
  (size (state_ q) <= size (state_ p) + n)%nat /\
  (forall k, is_Some (state_ p !! k) -> is_Some (state_ q !! k)).
Proof.
  induction n as [|n IH]; simpl; intros p outs q Hp Hr.
  - injection Hr as _ <-. split; [lia | auto].
  - destruct (next p) as [a d p'| |] eqn:Hn; try discriminate.
    destruct (run n p') as [[outs' q']|] eqn:Hr'; [|discriminate].
    injection Hr as _ <-.
    assert (Hq : state_after (next p) = Some p') by (rewrite Hn; reflexivity).
    assert (Hstep : next_step p p').
    { apply state_after_next; [|exact Hq].
      destruct (reachable_invariant r p Hp) as [_ Hc _ _].
      pose proof (initial_cursor_range r). lia. }
    destruct (IH p' outs' q' (reachable_next r p p' Hp Hq) Hr') as [Hs Hk].
    pose proof (next_step_size p p' Hstep). split; [lia|].
    intros k Hin. apply Hk. exact (next_step_keys p p' k Hstep Hin).
Qed.

(** X10: after [n] calls of [next] on a fresh engine the table holds at
    most [n] entries: one entry at most per address handed out. *)
Theorem table_size_le_calls
    (r : AddressRange) (g : Generator) (n : nat)
    (outs : list (IOAddress * bool)) (q : AddressRangePermutation) :
  run n (construct r g) = Some (outs, q) ->
  (size (state_ q) <= n)%nat.
Proof.
  intros Hr.
  destruct (run_table r n _ _ _ (reachable_construct r g) Hr) as [Hs _].
  simpl in Hs. rewrite map_size_empty in Hs. exact Hs.
Qed.

Lemma table_size_le_calls_witness :
  (size (state_ after_two_A) <= 2)%nat.
Proof.
  apply (table_size_le_calls range_A seed_count 2
           [(ipv4 192 0 2 4, false); (ipv4 192 0 2 2, false)] after_two_A).
  reflexivity.
Defined.

(** X11: [next] never removes an entry from the table: a position that is
    in the table of a reachable state is in the table after any further
    calls, also when the cursor has moved below it and the entry can no
    longer be read. *)
Theorem table_keys_persist
    (r : AddressRange) (p q : AddressRangePermutation) (n : nat)
    (outs : list (IOAddress * bool)) (k : Z) :
  reachable r p ->
  run n p = Some (outs, q) ->
  is_Some (state_ p !! k) ->
  is_Some (state_ q !! k).
Proof.
  intros Hp Hr. exact (proj2 (run_table r n p outs q Hp Hr) k).
Qed.

Lemma table_keys_persist_witness :
  is_Some (state_ exhausted_A !! 3) /\ cursor_ exhausted_A = 0.
Proof.
  split; [|reflexivity].
  apply (table_keys_persist range_A after_two_A exhausted_A 3
           [(ipv4 192 0 2 5, false); (ipv4 192 0 2 1, false);
            (ipv4 192 0 2 3, true)] 3).
  - apply (run_reachable range_A 2 (construct range_A seed_count)
             [(ipv4 192 0 2 4, false); (ipv4 192 0 2 2, false)]).
    + apply reachable_construct.
    + reflexivity.
  - reflexivity.
  - vm_compute. eexists. reflexivity.
Defined.

Lemma reachable_keys_int r p :
  reachable r p -> forall k, is_Some (state_ p !! k) -> 0 <= k <= INT_MAX.
Proof.
  induction 1 as [g|p q Hp IH Hq]; intros k Hk.
  - simpl in Hk. rewrite lookup_empty in Hk. destruct Hk; discriminate.
  - destruct (reachable_invariant r p Hp) as [_ Hc _ _].
    pose proof (initial_cursor_range r) as Hir.
    destruct (state_after_next p q) as [_ ->|_ _ ->|pick g' _ Hne Hu ->];
      [lia | exact Hq | auto | simpl in Hk; auto |].
    simpl in Hk. rewrite lookup_insert in Hk. case_decide as E; [|auto].
    subst k. destruct (pick_in_range (cursor_ p) (generator_ p) pick g');
      [lia | exact Hu | lia].
Qed.

(** X12: whatever the size of the range, the positions kept in the table of
    a reachable state fit an [int] ([0 <= key <= 2^31 - 1]), so the table
    never holds more than [2^31] entries. *)
Theorem table_keys_fit_int (r : AddressRange) (p : AddressRangePermutation) :
  reachable r p ->
  (forall k, is_Some (state_ p !! k) -> 0 <= k <= INT_MAX) /\
  Z.of_nat (size (state_ p)) <= 2 ^ 31.
Proof.
  intros Hp. pose proof (reachable_keys_int r p Hp) as Hk.
  split; [exact Hk|].
  apply size_keys_below; [lia|]. intros k Hs. specialize (Hk k Hs).
  unfold INT_MAX in Hk. lia.
Qed.

Lemma table_keys_fit_int_witness :
  Z.of_nat (size (state_ after_two_A)) <= 2 ^ 31.
Proof.
  refine (proj2 (table_keys_fit_int range_A after_two_A _)).
  apply (run_reachable range_A 2 (construct range_A seed_count)
           [(ipv4 192 0 2 4, false); (ipv4 192 0 2 2, false)]).
  - apply reachable_construct.
  - reflexivity.
Defined.

(** ** The range of two addresses *)

Lemma offsetAddress_0 a : offsetAddress a 0 = a.
Proof. destruct a as [f n]. unfold offsetAddress. simpl. f_equal. lia. Qed.

(** X14: on a well-formed range of exactly two addresses the order is not
    random: whatever the random source, the first call returns the start
    address with [done = false] and the second call returns the end address
    with [done = true]. *)
Theorem two_address_range_order_fixed (r : AddressRange) (g : Generator) :
  well_formed r ->
  addrsInRange (start_ r) (end_ r) = 2 ->
  exists q,
    run 2 (construct r g) = Some ([(start_ r, false); (end_ r, true)], q) /\
    done_ q = true.
Proof.
  intros Hwf HN.
  assert (Hend : offsetAddress (start_ r) 1 = end_ r).
  { destruct Hwf as (Hf & _). unfold addrsInRange in HN.
    destruct (end_ r) as [f e]. simpl in *. unfold offsetAddress.
    rewrite Hf. f_equal. lia. }
  assert (Hc : cursor_ (construct r g) = 1).
  { change (cursor_ (construct r g)) with (initial_cursor r).
    unfold initial_cursor. rewrite HN. reflexivity. }
  destruct (uniform_int_distribution_defined 0
              (dist_upper (cursor_ (construct r g)))
              (generator_ (construct r g))) as (pick & g' & Hu).
  { rewrite Hc. vm_compute. discriminate. }
  assert (Hpick : pick = 0).
  { rewrite Hc in Hu. exact (pick_at_cursor_one _ _ _ Hu). }
  subst pick.
  pose proof (next_general (construct r g) 0 g') as Hn.
  rewrite Hc in Hn. specialize (Hn ltac:(lia) eq_refl).
  rewrite Hc in Hu. specialize (Hn Hu).
  unfold address_at in Hn. simpl in Hn. rewrite !lookup_empty in Hn.
  rewrite offsetAddress_0, Hend in Hn.
  eexists. split.
  - simpl run. rewrite Hn. unfold next. simpl.
    rewrite lookup_insert_eq. reflexivity.
  - reflexivity.
Qed.

Lemma two_address_range_order_fixed_witness :
  exists q,
    run 2 (construct range_C seed_count) =
      Some ([(start_ range_C, false); (end_ range_C, true)], q) /\
    done_ q = true.
Proof.
  apply (two_address_range_order_fixed range_C seed_count).
  - wf_range.
  - reflexivity.
Defined.
